(** * filesystem: context-aware streams, the limiting reader and the
    scheme registry

    A shallow embedding of package [filesystem]: the [ReadCloser] and
    [WriteCloser] interfaces, the adapters to [io.ReadCloser] and
    [io.WriteCloser], [LimitedReadCloser], and the registry of file system
    implementations with the functions dispatching on the URL scheme.

    Interfaces are type classes over the type of the receiver's state; a
    method takes the receiver last and returns its results together with
    the receiver after the call.  A buffer [p []byte] is a list of bytes: a
    method that may store into it returns its contents after the call. *)

From Stdlib Require Import ZArith Lia.
From stdpp Require Import gmap strings list fin_maps.

Set Default Proof Using "Type".
Local Open Scope Z_scope.

(** ** Values shared by the package *)

(** [context.Context]: the background context and what is derived from it. *)
Inductive context : Type :=
| Background
| WithCancel (parent : context) (cancelled : bool)
| WithDeadline (parent : context) (deadline : Z).

(** Error values are compared by identity in Go: the sentinels of the
    package ([EUNSUPP], [ENOFS]) and of [io] ([EOF]) are constructors of
    their own, every other value of [errors.New] is told by its text. *)
Inductive error_value : Type :=
| EOF
| EUNSUPP
| ENOFS
| errors_New (text : string).

(** An [error] is an interface value: [None] is Go's [nil]. *)
Abbreviation error := (option error_value).
Abbreviation nil_error := (@None error_value).

Abbreviation bytes := (list Byte.byte).

(** [len(p)] as an integer. *)
Definition len {A : Type} (p : list A) : Z := Z.of_nat (length p).

(** Arithmetic of [int64]: the result of an operation on [Z], wrapped into
    the range from [-2^63] to [2^63 - 1]. *)
Definition wrap64 (z : Z) : Z := (z + 2 ^ 63) mod 2 ^ 64 - 2 ^ 63.

Definition is_int64 (z : Z) : Prop := - 2 ^ 63 <= z < 2 ^ 63.

(** ** The interfaces *)

(** [Close(context.Context) error], shared by [ReadCloser] and
    [WriteCloser]. *)
Class Closer (S : Type) : Type := {
  Close : context -> S -> error * S
}.

(** [ReadCloser]: [Read(context.Context, []byte) (int, error)] and
    [Close]. *)
Class ReadCloser (S : Type) : Type := {
  Read : context -> bytes -> S -> Z * error * bytes * S;
  ReadCloser_Closer :: Closer S
}.

(** [WriteCloser]: [Write(context.Context, []byte) (n int, err error)] and
    [Close]. *)
Class WriteCloser (S : Type) : Type := {
  Write : context -> bytes -> S -> Z * error * S;
  WriteCloser_Closer :: Closer S
}.

(** Package [io]: the same streams without a context. *)
Module io.
Class Closer (S : Type) : Type := {
  Close : S -> error * S
}.

Class ReadCloser (S : Type) : Type := {
  Read : bytes -> S -> Z * error * bytes * S;
  ReadCloser_Closer :: Closer S
}.

Class WriteCloser (S : Type) : Type := {
  Write : bytes -> S -> Z * error * S;
  WriteCloser_Closer :: Closer S
}.
End io.

(** ** LimitedReadCloser *)

Record LimitedReadCloser (S : Type) : Type := {
  R : S;   (* Underlying reader object *)
  N : Z    (* Maximum length to read from the reader before feigning EOF *)
}.
Arguments R {S} _.
Arguments N {S} _.

Section LimitedReadCloser.
Context {S : Type} `{!ReadCloser S}.

(** [func (l *LimitedReadCloser) Read(ctx, p)].  [p = p[0:l.N]] hands the
    first [l.N] bytes of the buffer to the underlying stream.  A list holds
    the bytes within the length of a slice, not its capacity: the slice
    [p[0:l.N]] keeps the capacity of [p], so that the buffer returned here
    is the buffer after the call for a stream that stores within the
    length of the slice it is given, and nothing is concluded from it for
    another.  [int64(n)] is exact, an [int] having at most 64 bits, and
    [l.N -= int64(n)] is a subtraction of [int64]. *)
Definition LimitedReadCloser_Read (ctx : context) (p : bytes)
    (l : LimitedReadCloser S) : Z * error * bytes * LimitedReadCloser S :=
  if N l <=? 0 then (0, Some EOF, p, l)
  else
    let '(p0, rest) :=
      if len p >? N l
      then (take (Z.to_nat (N l)) p, drop (Z.to_nat (N l)) p)
      else (p, []) in
    let '(n, err, p1, r) := Read ctx p0 (R l) in
    (n, err, p1 ++ rest, {| R := r; N := wrap64 (N l - n) |}).

(** [func (l *LimitedReadCloser) Close(ctx)]. *)
Definition LimitedReadCloser_Close (ctx : context)
    (l : LimitedReadCloser S) : error * LimitedReadCloser S :=
  let '(err, r) := Close ctx (R l) in
  (err, {| R := r; N := N l |}).

#[export] Instance LimitedReadCloser_Closer :
  Closer (LimitedReadCloser S) :=
  {| Close := LimitedReadCloser_Close |}.

#[export] Instance LimitedReadCloser_ReadCloser :
  ReadCloser (LimitedReadCloser S) :=
  {| Read := LimitedReadCloser_Read |}.
End LimitedReadCloser.

(** ** The adapters to package io *)

Record ioCompatReadCloser (S : Type) : Type := {
  readCloser : S
}.
Arguments readCloser {S} _.

Record ioCompatWriteCloser (S : Type) : Type := {
  writeCloser : S
}.
Arguments writeCloser {S} _.

Section IoCompat.
Context {S : Type}.

(** [func (rc *ioCompatReadCloser) Read(p)]. *)
Definition ioCompatReadCloser_Read `{!ReadCloser S} (p : bytes)
    (rc : ioCompatReadCloser S) : Z * error * bytes * ioCompatReadCloser S :=
  let ctx := Background in
  let '(n, err, p1, r) := Read ctx p (readCloser rc) in
  (n, err, p1, {| readCloser := r |}).

(** [func (rc *ioCompatReadCloser) Close()]. *)
Definition ioCompatReadCloser_Close `{!ReadCloser S}
    (rc : ioCompatReadCloser S) : error * ioCompatReadCloser S :=
  let ctx := Background in
  let '(err, r) := Close ctx (readCloser rc) in
  (err, {| readCloser := r |}).

#[export] Instance ioCompatReadCloser_io_Closer `{!ReadCloser S} :
  io.Closer (ioCompatReadCloser S) :=
  {| io.Close := ioCompatReadCloser_Close |}.

#[export] Instance ioCompatReadCloser_io_ReadCloser `{!ReadCloser S} :
  io.ReadCloser (ioCompatReadCloser S) :=
  {| io.Read := ioCompatReadCloser_Read |}.

(** [func ToIoReadCloser(rc ReadCloser) io.ReadCloser]. *)
Definition ToIoReadCloser `{!ReadCloser S} (rc : S) : ioCompatReadCloser S :=
  {| readCloser := rc |}.

(** [func (wc *ioCompatWriteCloser) Write(p)]. *)
Definition ioCompatWriteCloser_Write `{!WriteCloser S} (p : bytes)
    (wc : ioCompatWriteCloser S) : Z * error * ioCompatWriteCloser S :=
  let ctx := Background in
  let '(n, err, w) := Write ctx p (writeCloser wc) in
  (n, err, {| writeCloser := w |}).

(** [func (wc *ioCompatWriteCloser) Close()]. *)
Definition ioCompatWriteCloser_Close `{!WriteCloser S}
    (wc : ioCompatWriteCloser S) : error * ioCompatWriteCloser S :=
  let ctx := Background in
  let '(err, w) := Close ctx (writeCloser wc) in
  (err, {| writeCloser := w |}).

#[export] Instance ioCompatWriteCloser_io_Closer `{!WriteCloser S} :
  io.Closer (ioCompatWriteCloser S) :=
  {| io.Close := ioCompatWriteCloser_Close |}.

#[export] Instance ioCompatWriteCloser_io_WriteCloser `{!WriteCloser S} :
  io.WriteCloser (ioCompatWriteCloser S) :=
  {| io.Write := ioCompatWriteCloser_Write |}.

(** [func ToIoWriteCloser(wc WriteCloser) io.WriteCloser]. *)
Definition ToIoWriteCloser `{!WriteCloser S} (wc : S) : ioCompatWriteCloser S :=
  {| writeCloser := wc |}.
End IoCompat.

(** ** Streams used to exercise the package *)

(** A stream that records what is asked of the stream it wraps: which
    method, with which context and, for [Read], on which buffer. *)
Inductive Call : Type :=
| CallRead (ctx : context) (p : bytes)
| CallClose (ctx : context).

Record Spy (S : Type) : Type := {
  spied : S;
  calls : list Call
}.
Arguments spied {S} _.
Arguments calls {S} _.

Section Spy.
Context {S : Type} `{!ReadCloser S}.

Definition Spy_Read (ctx : context) (p : bytes) (s : Spy S)
    : Z * error * bytes * Spy S :=
  let '(n, err, p1, r) := Read ctx p (spied s) in
  (n, err, p1, {| spied := r; calls := calls s ++ [CallRead ctx p] |}).

Definition Spy_Close (ctx : context) (s : Spy S) : error * Spy S :=
  let '(err, r) := Close ctx (spied s) in
  (err, {| spied := r; calls := calls s ++ [CallClose ctx] |}).

#[export] Instance Spy_Closer : Closer (Spy S) :=
  {| Close := Spy_Close |}.

#[export] Instance Spy_ReadCloser : ReadCloser (Spy S) :=
  {| Read := Spy_Read |}.
End Spy.

(** [MockReadCloser] of limited_reader_test.go.  [rand.Read] of math/rand
    fills the whole buffer and reports its length; its generator is not
    part of the package, a linear congruential generator stands for it. *)
Definition ErrExpected : error_value := errors_New "Expect this error".

Record MockReadCloser : Type := {
  Fail : bool;
  rand_src : BinNums.N
}.

Definition rand_next (x : BinNums.N) : BinNums.N :=
  ((x * 6364136223846793005 + 1442695040888963407) mod 2 ^ 64)%N.

Definition rand_byte (x : BinNums.N) : Byte.byte :=
  default Byte.x00 (Byte.of_N ((x / 2 ^ 56) mod 256)%N).

Fixpoint rand_fill (p : bytes) (x : BinNums.N) : bytes * BinNums.N :=
  match p with
  | [] => ([], x)
  | _ :: p' =>
      let x1 := rand_next x in
      let '(q, x2) := rand_fill p' x1 in
      (rand_byte x1 :: q, x2)
  end.

Definition rand_Read (p : bytes) (x : BinNums.N)
    : Z * error * bytes * BinNums.N :=
  let '(q, x1) := rand_fill p x in
  (len p, nil_error, q, x1).

Definition MockReadCloser_Read (ctx : context) (p : bytes)
    (r : MockReadCloser) : Z * error * bytes * MockReadCloser :=
  if Fail r then (0, Some ErrExpected, p, r)
  else
    let '(n, err, q, x) := rand_Read p (rand_src r) in
    (n, err, q, {| Fail := Fail r; rand_src := x |}).

Definition MockReadCloser_Close (ctx : context) (r : MockReadCloser)
    : error * MockReadCloser :=
  if Fail r then (Some ErrExpected, r) else (nil_error, r).

#[export] Instance MockReadCloser_Closer : Closer MockReadCloser :=
  {| Close := MockReadCloser_Close |}.

#[export] Instance MockReadCloser_ReadCloser : ReadCloser MockReadCloser :=
  {| Read := MockReadCloser_Read |}.

(** A stream that reports whatever it is told to, in order: a byte count
    and an error for each [Read] (the buffer is left as it is), an error
    for each [Close]. *)
Record Scripted : Type := {
  reads : list (Z * error);
  closes : list error
}.

Definition Scripted_Read (ctx : context) (p : bytes) (s : Scripted)
    : Z * error * bytes * Scripted :=
  match reads s with
  | [] => (0, Some EOF, p, s)
  | (n, err) :: rs => (n, err, p, {| reads := rs; closes := closes s |})
  end.

Definition Scripted_Close (ctx : context) (s : Scripted) : error * Scripted :=
  match closes s with
  | [] => (nil_error, s)
  | err :: cs => (err, {| reads := reads s; closes := cs |})
  end.

#[export] Instance Scripted_Closer : Closer Scripted :=
  {| Close := Scripted_Close |}.

#[export] Instance Scripted_ReadCloser : ReadCloser Scripted :=
  {| Read := Scripted_Read |}.

(** A sequence of [Read] calls on one stream, each with its context and
    its buffer: the byte count and the error of each call, in order, and
    the stream after the last. *)
Fixpoint ReadSeq {S : Type} `{!ReadCloser S} (cs : list (context * bytes))
    (s : S) : list (Z * error) * S :=
  match cs with
  | [] => ([], s)
  | (ctx, p) :: cs' =>
      let '(n, err, _, s1) := Read ctx p s in
      let '(rs, s2) := ReadSeq cs' s1 in
      ((n, err) :: rs, s2)
  end.

(** The bytes reported by a sequence of calls, and the sizes of the
    buffers passed to them. *)
Definition total (rs : list (Z * error)) : Z :=
  foldr (fun r acc => r.1 + acc) 0 rs.

Definition requested (cs : list (context * bytes)) : Z :=
  foldr (fun c acc => len c.2 + acc) 0 cs.

(** A buffer of [k] zero bytes: [make([]byte, k)]. *)
Definition make_bytes (k : nat) : bytes := replicate k Byte.x00.

(** ** The registry of file system implementations *)

(** The fields of [url.URL] the package and its callers go by. *)
Record URL : Type := {
  Scheme : string;
  Host : string;
  Path : string;
  RawQuery : string
}.

(** [chan error]: a channel is known by its identity. *)
Inductive chan_error : Type :=
| Chan (id : positive).

(** The implementations act on a world [W] outside the package (disks,
    servers); the values of the interface types [ReadCloser] and
    [WriteCloser] they hand out are [RC] and [WC].  The package only
    passes these on. *)
Module FileSystem.
Section Interface.
Context {W RC WC : Type}.

(** [type FileWatchFunc func(u *url.URL, rc ReadCloser)]. *)
Definition FileWatchFunc : Type := URL -> RC -> W -> W.

(** [type CancelWatchFunc func() error]. *)
Definition CancelWatchFunc : Type := W -> error * W.

(** [type FileSystem interface]: a value of the interface, which is
    the methods of the implementation behind it.  A slice, a function
    and a channel can be [nil], here [None]. *)
Record t : Type := {
  OpenReader : context -> URL -> W -> option RC * error * W;
  OpenWriter : context -> URL -> W -> option WC * error * W;
  OpenAppender : context -> URL -> W -> option WC * error * W;
  ListEntries : context -> URL -> W -> option (list string) * error * W;
  WatchFile : context -> URL -> FileWatchFunc -> W ->
              option CancelWatchFunc * option chan_error * error * W;
  Remove : context -> URL -> W -> error * W
}.
End Interface.
Arguments FileWatchFunc : clear implicits.
Arguments CancelWatchFunc : clear implicits.
Arguments t : clear implicits.
End FileSystem.

Section Registry.
Context {W RC WC : Type}.

(** A variable of type [FileSystem] holds an implementation or [nil]. *)
Local Abbreviation FileSystem := (option (FileSystem.t W RC WC)).

(** [map[string]FileSystem], the type of [registeredFileSystems]. *)
Local Abbreviation registry := (gmap string (option (FileSystem.t W RC WC))).

(** [v, found = m[k]]: the zero value and [false] for a missing key. *)
Definition index2 (m : registry) (k : string) : FileSystem * bool :=
  match m !! k with
  | Some v => (v, true)
  | None => (None, false)
  end.

(** [m[k]]. *)
Definition index (m : registry) (k : string) : FileSystem :=
  (index2 m k).1.

(** [var registeredFileSystems = make(map[string]FileSystem)]. *)
Definition make_registeredFileSystems : registry := ∅.

(** [func AddImplementation(scheme, fs)]:
    [registeredFileSystems[scheme] = fs]. *)
Definition AddImplementation (scheme : string) (fs : FileSystem)
    (registeredFileSystems : registry) : registry :=
  <[scheme := fs]> registeredFileSystems.

(** [func GetImplementation(fileurl) FileSystem]. *)
Definition GetImplementation (fileurl : URL)
    (registeredFileSystems : registry) : FileSystem :=
  let '(_, found) := index2 registeredFileSystems (Scheme fileurl) in
  if found then index registeredFileSystems (Scheme fileurl)
  else None.

(** [func HasImplementation(scheme) bool]. *)
Definition HasImplementation (scheme : string)
    (registeredFileSystems : registry) : bool :=
  let '(_, found) := index2 registeredFileSystems scheme in
  found.

(** The functions dispatching on the scheme.  They read the registry
    and leave it as it is; the world is what the implementation makes
    of it. *)
Definition OpenReader (ctx : context) (fileurl : URL)
    (registeredFileSystems : registry) (w : W)
    : option RC * error * W :=
  let fs := GetImplementation fileurl registeredFileSystems in
  match fs with
  | None => (None, Some ENOFS, w)
  | Some fs => FileSystem.OpenReader fs ctx fileurl w
  end.

Definition OpenWriter (ctx : context) (fileurl : URL)
    (registeredFileSystems : registry) (w : W)
    : option WC * error * W :=
  let fs := GetImplementation fileurl registeredFileSystems in
  match fs with
  | None => (None, Some ENOFS, w)
  | Some fs => FileSystem.OpenWriter fs ctx fileurl w
  end.

Definition OpenAppender (ctx : context) (fileurl : URL)
    (registeredFileSystems : registry) (w : W)
    : option WC * error * W :=
  let fs := GetImplementation fileurl registeredFileSystems in
  match fs with
  | None => (None, Some ENOFS, w)
  | Some fs => FileSystem.OpenAppender fs ctx fileurl w
  end.

Definition ListEntries (ctx : context) (dirurl : URL)
    (registeredFileSystems : registry) (w : W)
    : option (list string) * error * W :=
  let fs := GetImplementation dirurl registeredFileSystems in
  match fs with
  | None => (None, Some ENOFS, w)
  | Some fs => FileSystem.ListEntries fs ctx dirurl w
  end.

Definition WatchFile (ctx : context) (fileurl : URL)
    (watcher : FileSystem.FileWatchFunc W RC)
    (registeredFileSystems : registry) (w : W)
    : option (FileSystem.CancelWatchFunc W) * option chan_error * error * W :=
  let fs := GetImplementation fileurl registeredFileSystems in
  match fs with
  | None => (None, None, Some ENOFS, w)
  | Some fs => FileSystem.WatchFile fs ctx fileurl watcher w
  end.

Definition Remove (ctx : context) (fileurl : URL)
    (registeredFileSystems : registry) (w : W) : error * W :=
  let fs := GetImplementation fileurl registeredFileSystems in
  match fs with
  | None => (Some ENOFS, w)
  | Some fs => FileSystem.Remove fs ctx fileurl w
  end.
End Registry.

(** Implementations used to exercise the registry.  [Unsupported] answers
    every call with [EUNSUPP], as an implementation is to do for what it
    lacks; [Tagged tag] does the same and leaves its tag and the name of
    the method in the world, a list of strings. *)
Definition Unsupported {W RC WC : Type} : FileSystem.t W RC WC := {|
  FileSystem.OpenReader := fun _ _ w => (None, Some EUNSUPP, w);
  FileSystem.OpenWriter := fun _ _ w => (None, Some EUNSUPP, w);
  FileSystem.OpenAppender := fun _ _ w => (None, Some EUNSUPP, w);
  FileSystem.ListEntries := fun _ _ w => (None, Some EUNSUPP, w);
  FileSystem.WatchFile := fun _ _ _ w => (None, None, Some EUNSUPP, w);
  FileSystem.Remove := fun _ _ w => (Some EUNSUPP, w)
|}.

Definition Tagged (tag : string) : FileSystem.t (list string) unit unit := {|
  FileSystem.OpenReader := fun _ _ w =>
    (None, Some EUNSUPP, w ++ [tag +:+ ".OpenReader"]);
  FileSystem.OpenWriter := fun _ _ w =>
    (None, Some EUNSUPP, w ++ [tag +:+ ".OpenWriter"]);
  FileSystem.OpenAppender := fun _ _ w =>
    (None, Some EUNSUPP, w ++ [tag +:+ ".OpenAppender"]);
  FileSystem.ListEntries := fun _ _ w =>
    (None, Some EUNSUPP, w ++ [tag +:+ ".ListEntries"]);
  FileSystem.WatchFile := fun _ _ _ w =>
    (None, None, Some EUNSUPP, w ++ [tag +:+ ".WatchFile"]);
  FileSystem.Remove := fun _ _ w =>
    (Some EUNSUPP, w ++ [tag +:+ ".Remove"])
|}.

Definition url_of (scheme path : string) : URL :=
  {| Scheme := scheme; Host := ""; Path := path; RawQuery := "" |}.

(** The six dispatching functions side by side, on one URL, registry
    and world; what an implementation answers to the same six calls; and
    the six answers when no implementation is found. *)
Definition dispatch {W RC WC : Type} (ctx : context) (u : URL)
    (watcher : FileSystem.FileWatchFunc W RC)
    (registeredFileSystems : gmap string (option (FileSystem.t W RC WC))) (w : W) :=
  (OpenReader ctx u registeredFileSystems w,
   OpenWriter ctx u registeredFileSystems w,
   OpenAppender ctx u registeredFileSystems w,
   ListEntries ctx u registeredFileSystems w,
   WatchFile ctx u watcher registeredFileSystems w,
   Remove ctx u registeredFileSystems w).

Definition forwarded {W RC WC : Type} (fs : FileSystem.t W RC WC)
    (ctx : context) (u : URL) (watcher : FileSystem.FileWatchFunc W RC) (w : W) :=
  (FileSystem.OpenReader fs ctx u w,
   FileSystem.OpenWriter fs ctx u w,
   FileSystem.OpenAppender fs ctx u w,
   FileSystem.ListEntries fs ctx u w,
   FileSystem.WatchFile fs ctx u watcher w,
   FileSystem.Remove fs ctx u w).

Definition refused {W RC WC : Type} (w : W) :=
  ((@None RC, Some ENOFS, w),
   (@None WC, Some ENOFS, w),
   (@None WC, Some ENOFS, w),
   (@None (list string), Some ENOFS, w),
   (@None (FileSystem.CancelWatchFunc W), @None chan_error, Some ENOFS, w),
   (Some ENOFS, w)).

(** Registrations made one after the other. *)
Definition AddImplementations {W RC WC : Type}
    (later : list (string * option (FileSystem.t W RC WC)))
    (registeredFileSystems : gmap string (option (FileSystem.t W RC WC)))
    : gmap string (option (FileSystem.t W RC WC)) :=
  foldl (fun reg e => AddImplementation e.1 e.2 reg) registeredFileSystems later.

(** A watcher that does nothing. *)
Definition ignore_changes {W RC : Type} : FileSystem.FileWatchFunc W RC :=
  fun _ _ w => w.

(** The buffer [LimitedReadCloser.Read] hands to the underlying stream:
    [p[0:l.N]] when [p] is longer than the budget, [p] otherwise. *)
Definition passed_on {S : Type} (p : bytes) (l : LimitedReadCloser S) : bytes :=
  if len p >? N l then take (Z.to_nat (N l)) p else p.

(** An underlying stream with bytes available, [avail s] of them in state
    [s] at the least: a [Read] into a buffer no longer than that fills the
    buffer and reports no error, and uses up no more than it delivers.  A
    stream that fills whatever buffer it is given has any number of bytes
    available, in every state. *)
Definition has_available {S : Type} `{!ReadCloser S} (avail : S -> Z) : Prop :=
  forall ctx p s,
    len p <= avail s ->
    (Read ctx p s).1.1 = (len p, nil_error)
    /\ avail s - len p <= avail (Read ctx p s).2.

(** An underlying stream that reports a number of bytes, never more than
    the length of the buffer it is given. *)
Definition counts_within_buffer (S : Type) `{!ReadCloser S} : Prop :=
  forall ctx p s, 0 <= (Read ctx p s).1.1.1 <= len p.

(** The reader [l] with its underlying stream put under a [Spy] that has
    [log] on record so far. *)
Definition spying {S : Type} (l : LimitedReadCloser S) (log : list Call)
    : LimitedReadCloser (Spy S) :=
  {| R := {| spied := R l; calls := log |}; N := N l |}.

(** What [MockReadCloser] has available: anything while it does not fail. *)
Definition MockReadCloser_avail (r : MockReadCloser) : Z :=
  if Fail r then -1 else 2 ^ 63.

(** The readers and buffers of limited_reader_test.go. *)
Definition mockReadCloser : MockReadCloser := {| Fail := false; rand_src := 1 |}.
Definition failingReadCloser : MockReadCloser := {| Fail := true; rand_src := 1 |}.
Definition buf : bytes := make_bytes 100.

(** An underlying stream that fails: its first [Read] stores 3 bytes
    and reports an error, its [Close] reports another. *)
Definition ErrDisk : error_value := errors_New "disk failure".
Definition ErrClose : error_value := errors_New "close failed".
Definition brokenReadCloser : Scripted :=
  {| reads := [(3, Some ErrDisk)]; closes := [Some ErrClose] |}.

(** Sequences of calls through the other interfaces: [Read] of
    [io.ReadCloser], [Write] of [WriteCloser] and of [io.WriteCloser],
    with the count and the error of each call and the stream after the
    last. *)
Fixpoint io_ReadSeq {S : Type} `{!io.ReadCloser S} (ps : list bytes) (s : S)
    : list (Z * error) * S :=
  match ps with
  | [] => ([], s)
  | p :: ps' =>
      let '(n, err, _, s1) := io.Read p s in
      let '(rs, s2) := io_ReadSeq ps' s1 in
      ((n, err) :: rs, s2)
  end.

Fixpoint WriteSeq {S : Type} `{!WriteCloser S} (cs : list (context * bytes))
    (s : S) : list (Z * error) * S :=
  match cs with
  | [] => ([], s)
  | (ctx, p) :: cs' =>
      let '(n, err, s1) := Write ctx p s in
      let '(rs, s2) := WriteSeq cs' s1 in
      ((n, err) :: rs, s2)
  end.

Fixpoint io_WriteSeq {S : Type} `{!io.WriteCloser S} (ps : list bytes) (s : S)
    : list (Z * error) * S :=
  match ps with
  | [] => ([], s)
  | p :: ps' =>
      let '(n, err, s1) := io.Write p s in
      let '(rs, s2) := io_WriteSeq ps' s1 in
      ((n, err) :: rs, s2)
  end.

(** The calls of a context-free caller, as the adapters make them. *)
Definition in_background (ps : list bytes) : list (context * bytes) :=
  map (fun p => (Background, p)) ps.

(** What a history of registrations leaves under a scheme: nothing when
    the scheme was never registered, else the value of the last
    registration under it ([nil] included). *)
Fixpoint last_registered {W RC WC : Type} (s : string)
    (history : list (string * option (FileSystem.t W RC WC)))
    : option (option (FileSystem.t W RC WC)) :=
  match history with
  | [] => None
  | (s', fs) :: rest =>
      match last_registered s rest with
      | Some found => Some found
      | None => if decide (s' = s) then Some fs else None
      end
  end.

(** Streams that report wrong counts: one reports 200 bytes whatever the
    buffer, once; one reports -1, always. *)
Definition overReporting : Scripted :=
  {| reads := [(200, nil_error)]; closes := [] |}.

Inductive Backwards : Type :=
| backwards.

Definition Backwards_Read (ctx : context) (p : bytes) (s : Backwards)
    : Z * error * bytes * Backwards :=
  (-1, nil_error, p, s).

Definition Backwards_Close (ctx : context) (s : Backwards) : error * Backwards :=
  (nil_error, s).

#[export] Instance Backwards_Closer : Closer Backwards :=
  {| Close := Backwards_Close |}.

#[export] Instance Backwards_ReadCloser : ReadCloser Backwards :=
  {| Read := Backwards_Read |}.

(** * Properties *)

(** ** Integers *)

Lemma wrap64_exact (z : Z) : is_int64 z -> wrap64 z = z.
Proof.
  unfold is_int64, wrap64. intros Hz.
  rewrite Z.mod_small; lia.
Qed.

Lemma wrap64_is_int64 (z : Z) : is_int64 (wrap64 z).
Proof.
  unfold is_int64, wrap64.
  pose proof (Z.mod_pos_bound (z + 2 ^ 63) (2 ^ 64)). lia.
Qed.

Lemma len_take {A : Type} (k : Z) (p : list A) :
  0 <= k <= len p -> len (take (Z.to_nat k) p) = k.
Proof.
  unfold len. intros Hk. rewrite length_take. lia.
Qed.

Lemma len_app {A : Type} (p q : list A) : len (p ++ q) = len p + len q.
Proof. unfold len. rewrite length_app. lia. Qed.

(** ** LimitedReadCloser.Read, one call *)

Section ReadOnce.
Context {S : Type} `{!ReadCloser S}.
Implicit Types (l : LimitedReadCloser S) (p : bytes) (ctx : context).

(** The first branch: nothing left. *)
Lemma Read_exhausted ctx p l :
  N l <= 0 -> Read ctx p l = (0, Some EOF, p, l).
Proof.
  intros HN. simpl. unfold LimitedReadCloser_Read.
  destruct (Z.leb_spec (N l) 0); [reflexivity | lia].
Qed.

(** The call that goes through, in terms of the call it makes. *)
Lemma Read_delegates ctx p l :
  0 < N l ->
  Read ctx p l =
    let under := Read ctx (passed_on p l) (R l) in
    (under.1.1, under.1.2 ++ (if len p >? N l then drop (Z.to_nat (N l)) p else []),
     {| R := under.2; N := wrap64 (N l - under.1.1.1) |}).
Proof.
  intros HN. simpl. unfold LimitedReadCloser_Read, passed_on.
  destruct (Z.leb_spec (N l) 0); [lia |].
  destruct (len p >? N l);
    destruct (Read ctx _ (R l)) as [[[n err] p1] r]; reflexivity.
Qed.

Lemma len_passed_on p l : 0 <= N l -> len (passed_on p l) = Z.min (len p) (N l).
Proof.
  intros HN. unfold passed_on.
  destruct (Z.gtb_spec (len p) (N l)).
  - rewrite len_take; lia.
  - lia.
Qed.
End ReadOnce.

(** ** Sequences of calls *)

Lemma ReadSeq_cons {S : Type} `{!ReadCloser S} ctx p cs (s : S) :
  ReadSeq ((ctx, p) :: cs) s =
    ((Read ctx p s).1.1 :: (ReadSeq cs (Read ctx p s).2).1,
     (ReadSeq cs (Read ctx p s).2).2).
Proof.
  cbn [ReadSeq].
  destruct (Read ctx p s) as [[[n err] p1] s1]. cbn [fst snd].
  destruct (ReadSeq cs s1) as [rs s2]. reflexivity.
Qed.

Lemma requested_nonneg cs : 0 <= requested cs.
Proof.
  induction cs as [|c cs IH]; cbn [requested foldr]; [lia |].
  fold (requested cs). unfold len. lia.
Qed.

Lemma requested_cons ctx p cs : requested ((ctx, p) :: cs) = len p + requested cs.
Proof. reflexivity. Qed.

Lemma total_cons r rs : total (r :: rs) = r.1 + total rs.
Proof. reflexivity. Qed.

Section Filling.
Context {S : Type} `{!ReadCloser S}.
Variable avail : S -> Z.
Hypothesis Havail : has_available avail.
Implicit Types (l : LimitedReadCloser S) (p : bytes) (ctx : context).

(** One call over a stream with the budget available: the smaller of the
    buffer and the budget is delivered, and taken off the budget. *)
Lemma Read_filling ctx p l :
  0 <= N l < 2 ^ 63 ->
  N l <= avail (R l) ->
  (Read ctx p l).1.1 =
    (Z.min (len p) (N l), if N l =? 0 then Some EOF else nil_error)
  /\ N (Read ctx p l).2 = N l - Z.min (len p) (N l)
  /\ N (Read ctx p l).2 <= avail (R (Read ctx p l).2).
Proof using Havail.
  intros HN Hav. destruct (Z.eqb_spec (N l) 0) as [H0|H0].
  - rewrite Read_exhausted by lia. cbn [fst snd].
    unfold len. split; [f_equal; lia | lia].
  - rewrite Read_delegates by lia. cbn [fst snd N R].
    pose proof (len_passed_on p l ltac:(lia)) as Hlen.
    destruct (Havail ctx (passed_on p l) (R l)) as [Hres Hleft]; [lia |].
    rewrite Hres. cbn [fst snd]. rewrite Hlen.
    rewrite wrap64_exact by (unfold is_int64, len; lia).
    split; [reflexivity |]. split; lia.
Qed.

Lemma ReadSeq_filling cs : forall l,
  0 <= N l < 2 ^ 63 ->
  N l <= avail (R l) ->
  total (ReadSeq cs l).1 = Z.min (requested cs) (N l)
  /\ N (ReadSeq cs l).2 = N l - total (ReadSeq cs l).1
  /\ N (ReadSeq cs l).2 <= avail (R (ReadSeq cs l).2)
  /\ Forall (fun r => r.2 = nil_error \/ r = (0, Some EOF)) (ReadSeq cs l).1.
Proof using Havail.
  induction cs as [|[ctx p] cs IH]; intros l HN Hav.
  - cbn. repeat split; [lia | lia | lia | constructor].
  - rewrite ReadSeq_cons. cbn [fst snd].
    destruct (Read_filling ctx p l HN Hav) as (Hres & Hleft & Hav').
    assert (Hlen : 0 <= len p) by (unfold len; lia).
    destruct (IH (Read ctx p l).2) as (Htot & HN' & Hav'' & Hall);
      [lia | exact Hav' |].
    rewrite total_cons, requested_cons, Htot, Hres.
    cbn [fst snd]. pose proof (requested_nonneg cs).
    repeat split; [lia | lia | lia |].
    constructor; [| exact Hall].
    cbn [fst snd]. destruct (Z.eqb_spec (N l) 0) as [H0|H0].
    + right. f_equal. f_equal. lia.
    + left. reflexivity.
Qed.
End Filling.

(** C1.  Over an underlying stream that has at least the budget [N >= 0]
    available (each of its reads fills the buffer it is given and reports
    no error), a reader delivers, over any sequence of [Read] calls, the
    smaller of [N] and of what the buffers ask for: never more than [N],
    and exactly [N] once that much was asked for.  The budget left is [N]
    less what was delivered; a call reports an error only as [(0, EOF)];
    the call after the sequence reports [EOF] exactly when the total
    delivered is [N], and then it returns [(0, EOF)] and changes nothing. *)
Theorem C1_reads_deliver_exactly_the_budget
    {S : Type} `{!ReadCloser S} (avail : S -> Z) (l : LimitedReadCloser S)
    (cs : list (context * bytes)) :
  has_available avail ->
  0 <= N l < 2 ^ 63 ->
  N l <= avail (R l) ->
  let rs := (ReadSeq cs l).1 in
  let l' := (ReadSeq cs l).2 in
  total rs = Z.min (requested cs) (N l)
  /\ total rs <= N l
  /\ (N l <= requested cs -> total rs = N l)
  /\ N l' = N l - total rs
  /\ Forall (fun r => r.2 = nil_error \/ r = (0, Some EOF)) rs
  /\ (forall ctx p, (Read ctx p l').1.1.2 = Some EOF <-> total rs = N l)
  /\ (forall ctx p, total rs = N l -> Read ctx p l' = (0, Some EOF, p, l')).
Proof.
  intros Havail HN Hav rs l'. subst rs l'.
  destruct (ReadSeq_filling avail Havail cs l HN Hav) as (Htot & HN' & Hav' & Hall).
  pose proof (requested_nonneg cs) as Hreq.
  split; [exact Htot |]. split; [lia |]. split; [lia |].
  split; [exact HN' |]. split; [exact Hall |]. split.
  - intros ctx p.
    destruct (Read_filling avail Havail ctx p (ReadSeq cs l).2) as (Hres & _);
      [lia | exact Hav' |].
    rewrite Hres. cbn [fst snd].
    destruct (Z.eqb_spec (N (ReadSeq cs l).2) 0); split; intros H;
      try discriminate; try reflexivity; lia.
  - intros ctx p Heq. apply Read_exhausted. lia.
Qed.

Lemma MockReadCloser_has_available : has_available MockReadCloser_avail.
Proof.
  intros ctx p [[] x]; unfold MockReadCloser_avail; cbn [Fail]; intros Hp.
  - unfold len in Hp. lia.
  - cbn. unfold MockReadCloser_Read, rand_Read. cbn [Fail rand_src].
    destruct (rand_fill p x). cbn. split; [reflexivity | unfold len; lia].
Qed.

Lemma C1_witness :
  let l := {| R := mockReadCloser; N := 125 |} in
  let cs := [(Background, buf); (Background, buf); (WithCancel Background false, buf)] in
  (ReadSeq cs l).1 = [(100, nil_error); (25, nil_error); (0, Some EOF)]
  /\ total (ReadSeq cs l).1 = 125
  /\ Read Background buf (ReadSeq cs l).2 = (0, Some EOF, buf, (ReadSeq cs l).2).
Proof.
  cbv zeta.
  assert (HN : 0 <= N {| R := mockReadCloser; N := 125 |} < 2 ^ 63)
    by (cbn; lia).
  assert (Hav : N {| R := mockReadCloser; N := 125 |}
                <= MockReadCloser_avail (R {| R := mockReadCloser; N := 125 |}))
    by (vm_compute; discriminate).
  pose proof (C1_reads_deliver_exactly_the_budget MockReadCloser_avail
            {| R := mockReadCloser; N := 125 |}
            [(Background, buf); (Background, buf); (WithCancel Background false, buf)]
            MockReadCloser_has_available HN Hav) as H.
  cbv zeta in H. destruct H as (Htot & _ & _ & _ & _ & _ & Hnext).
  split; [vm_compute; reflexivity |].
  split; [rewrite Htot; vm_compute; reflexivity |].
  apply Hnext. vm_compute. reflexivity.
Defined.

(** ** What the underlying stream is asked *)

Section Spying.
Context {S : Type} `{!ReadCloser S}.
Implicit Types (l : LimitedReadCloser S) (p : bytes) (ctx : context).

Lemma spying_exhausted ctx p l log :
  N l <= 0 -> calls (R (Read ctx p (spying l log)).2) = log.
Proof.
  intros HN. rewrite Read_exhausted by exact HN. reflexivity.
Qed.

Lemma spying_delegates ctx p l log :
  0 < N l ->
  calls (R (Read ctx p (spying l log)).2) = log ++ [CallRead ctx (passed_on p l)].
Proof.
  intros HN. rewrite Read_delegates by exact HN.
  change (passed_on p (spying l log)) with (passed_on p l).
  cbn [fst snd R N spying]. cbn [Read Spy_ReadCloser]. unfold Spy_Read.
  cbn [spied calls].
  destruct (Read ctx (passed_on p l) (R l)) as [[[n err] p1] r]. reflexivity.
Qed.
End Spying.

(** C9.  With a budget of zero or less, negative budgets included, [Read]
    returns [(0, EOF)] and leaves the buffer, the budget [N] and the
    underlying reader [R] as they were; a [Spy] put around the underlying
    stream records no call. *)
Theorem C9_exhausted_read_changes_nothing
    {S : Type} `{!ReadCloser S} (ctx : context) (p : bytes)
    (l : LimitedReadCloser S) (log : list Call) :
  N l <= 0 ->
  Read ctx p l = (0, Some EOF, p, l)
  /\ N (Read ctx p l).2 = N l
  /\ R (Read ctx p l).2 = R l
  /\ calls (R (Read ctx p (spying l log)).2) = log.
Proof.
  intros HN. rewrite (Read_exhausted ctx p l HN). cbn [fst snd].
  repeat split. apply spying_exhausted, HN.
Qed.

Lemma C9_witness :
  let l := {| R := mockReadCloser; N := -5 |} in
  -5 <= 0
  /\ Read Background buf l = (0, Some EOF, buf, l)
  /\ calls (R (Read Background buf (spying l [CallClose Background])).2)
     = [CallClose Background].
Proof.
  cbv zeta.
  assert (HN : N {| R := mockReadCloser; N := -5 |} <= 0) by (cbn; lia).
  destruct (C9_exhausted_read_changes_nothing Background buf
              {| R := mockReadCloser; N := -5 |} [CallClose Background] HN)
    as (Hread & _ & _ & Hlog).
  split; [lia |]. split; [exact Hread | exact Hlog].
Defined.

(** C5.  A reader whose budget is 0 answers its first [Read] with
    [(0, EOF)] at once: buffer and reader are as before, and a [Spy] put
    around the underlying stream records no call.  So does every later
    [Read]: any sequence of calls gets [(0, EOF)] each time. *)
Theorem C5_zero_budget_reads_EOF_at_once
    {S : Type} `{!ReadCloser S} (ctx : context) (p : bytes) (r : S)
    (log : list Call) (cs : list (context * bytes)) :
  let l := {| R := r; N := 0 |} in
  Read ctx p l = (0, Some EOF, p, l)
  /\ calls (R (Read ctx p (spying l log)).2) = log
  /\ ReadSeq cs l = (map (fun _ => (0, Some EOF)) cs, l).
Proof.
  intros l.
  assert (HN : N l <= 0) by (cbn; lia).
  split; [apply Read_exhausted, HN |].
  split; [apply spying_exhausted, HN |].
  induction cs as [|[ctx' p'] cs IH]; [reflexivity |].
  rewrite ReadSeq_cons, (Read_exhausted ctx' p' l HN). cbn [fst snd].
  rewrite IH. reflexivity.
Qed.

(** C4.  Whatever error other than [EOF] the underlying [Read] reports,
    with whatever count [n], a [Read] with budget left returns that count
    and that error as they are, and takes [n] off the budget (in the
    arithmetic of [int64]; exactly [N - n] for a count of bytes, which is
    not negative).  Whatever error the underlying [Close] reports, [Close]
    returns it as it is. *)
Theorem C4_errors_are_forwarded
    {S : Type} `{!ReadCloser S} (ctx : context) (l : LimitedReadCloser S) :
  (forall p n e q r,
     0 < N l ->
     Read ctx (passed_on p l) (R l) = (n, Some e, q, r) ->
     e <> EOF ->
     (Read ctx p l).1.1 = (n, Some e)
     /\ R (Read ctx p l).2 = r
     /\ N (Read ctx p l).2 = wrap64 (N l - n)
     /\ (0 <= n < 2 ^ 63 -> N l < 2 ^ 63 -> N (Read ctx p l).2 = N l - n))
  /\ (forall e r,
        Close ctx (R l) = (Some e, r) ->
        Close ctx l = (Some e, {| R := r; N := N l |})).
Proof.
  split.
  - intros p n e q r HN Hunder _.
    rewrite Read_delegates by exact HN. rewrite Hunder. cbn [fst snd N R].
    repeat split. intros Hn HN'.
    apply wrap64_exact. unfold is_int64. lia.
  - intros e r Hclose. cbn [Close LimitedReadCloser_Closer ReadCloser_Closer
      LimitedReadCloser_ReadCloser].
    unfold LimitedReadCloser_Close. rewrite Hclose. reflexivity.
Qed.

Lemma C4_witness :
  let l := {| R := brokenReadCloser; N := 125 |} in
  (Read Background buf l).1.1 = (3, Some ErrDisk)
  /\ N (Read Background buf l).2 = 122
  /\ Close Background l
     = (Some ErrClose, {| R := {| reads := [(3, Some ErrDisk)]; closes := [] |};
                          N := 125 |})
  /\ (Read Background buf {| R := failingReadCloser; N := 125 |}).1.1
     = (0, Some ErrExpected)
  /\ (Close Background {| R := failingReadCloser; N := 1 |}).1 = Some ErrExpected.
Proof.
  cbv zeta.
  destruct (C4_errors_are_forwarded Background
              {| R := brokenReadCloser; N := 125 |}) as [Hread Hclose].
  destruct (Hread buf 3 ErrDisk buf {| reads := []; closes := [Some ErrClose] |})
    as (Hres & _ & _ & Hleft);
    [cbn; lia | vm_compute; reflexivity | discriminate |].
  split; [exact Hres |].
  split; [rewrite Hleft; cbn; lia |].
  split; [apply Hclose; vm_compute; reflexivity |].
  destruct (C4_errors_are_forwarded Background
              {| R := failingReadCloser; N := 125 |}) as [Hread' _].
  destruct (Hread' buf 0 ErrExpected (passed_on buf {| R := failingReadCloser; N := 125 |})
              failingReadCloser) as (Hres' & _);
    [cbn; lia | vm_compute; reflexivity | discriminate |].
  split; [exact Hres' |].
  destruct (C4_errors_are_forwarded Background
              {| R := failingReadCloser; N := 1 |}) as [_ Hclose'].
  rewrite (Hclose' ErrExpected failingReadCloser); reflexivity.
Defined.

(** ** The budget is never overdrawn *)

Section Within.
Context {S : Type} `{!ReadCloser S}.
Hypothesis Hwithin : counts_within_buffer S.
Implicit Types (l : LimitedReadCloser S) (p : bytes) (ctx : context).

Lemma Read_within ctx p l :
  0 <= N l < 2 ^ 63 ->
  0 <= (Read ctx p l).1.1.1 <= Z.min (len p) (N l)
  /\ N (Read ctx p l).2 = N l - (Read ctx p l).1.1.1.
Proof using Hwithin.
  intros HN. assert (Hlen : 0 <= len p) by (unfold len; lia).
  destruct (Z.le_gt_cases (N l) 0) as [H0|H0].
  - rewrite Read_exhausted by exact H0. cbn [fst snd]. lia.
  - rewrite Read_delegates by exact H0. cbn [fst snd N].
    pose proof (Hwithin ctx (passed_on p l) (R l)) as Hn.
    rewrite len_passed_on in Hn by lia.
    split; [exact Hn |].
    apply wrap64_exact. unfold is_int64. lia.
Qed.

Lemma ReadSeq_within cs : forall l,
  0 <= N l < 2 ^ 63 ->
  0 <= total (ReadSeq cs l).1 <= N l
  /\ N (ReadSeq cs l).2 = N l - total (ReadSeq cs l).1.
Proof using Hwithin.
  induction cs as [|[ctx p] cs IH]; intros l HN.
  - cbn. lia.
  - rewrite ReadSeq_cons. cbn [fst snd]. rewrite total_cons.
    destruct (Read_within ctx p l HN) as [Hn Hleft].
    destruct (IH (Read ctx p l).2) as [Htot Hleft']; [lia |].
    cbn [fst snd]. lia.
Qed.
End Within.

(** C3 (amended).  A [Read] with budget [B > 0] into a buffer longer than
    [B] calls the underlying stream once, with the first [B] bytes of the
    buffer as its buffer (a [Spy] around the stream records that one call
    and no other), and returns the count and the error the stream reports: at most
    [B] bytes when the stream reports no more than the length of the
    buffer it was given, and a budget that is not negative when the count
    is not negative either.  Provided the underlying reads report a count
    from 0 to the length of the buffer they are given, every [Read],
    whatever the buffer, returns at most the budget and takes exactly that
    off it, so that the budget is not negative after any [Read], nor after
    any sequence of them. *)
Theorem C3_budget_is_never_overdrawn
    {S : Type} `{!ReadCloser S} (l : LimitedReadCloser S) :
  0 <= N l < 2 ^ 63 ->
  (forall ctx p,
     0 < N l -> N l < len p ->
     let prefix := take (Z.to_nat (N l)) p in
     let under := Read ctx prefix (R l) in
     len prefix = N l
     /\ (Read ctx p l).1.1 = under.1.1
     /\ (Read ctx p l).2 = {| R := under.2; N := wrap64 (N l - under.1.1.1) |}
     /\ (forall log,
           calls (R (Read ctx p (spying l log)).2) = log ++ [CallRead ctx prefix])
     /\ (under.1.1.1 <= len prefix -> (Read ctx p l).1.1.1 <= N l)
     /\ (0 <= under.1.1.1 <= len prefix -> 0 <= N (Read ctx p l).2))
  /\ (counts_within_buffer S ->
      (forall ctx p,
         0 <= (Read ctx p l).1.1.1 <= N l
         /\ N (Read ctx p l).2 = N l - (Read ctx p l).1.1.1
         /\ 0 <= N (Read ctx p l).2)
      /\ (forall cs,
            total (ReadSeq cs l).1 <= N l
            /\ 0 <= N (ReadSeq cs l).2)).
Proof.
  intros HN. split.
  - intros ctx p HB Hlong prefix under.
    assert (Hpass : passed_on p l = prefix).
    { unfold passed_on. destruct (Z.gtb_spec (len p) (N l)); [reflexivity | lia]. }
    assert (Hlen : len prefix = N l) by (apply len_take; lia).
    assert (Hread : Read ctx p l =
      (under.1.1, under.1.2 ++ drop (Z.to_nat (N l)) p,
       {| R := under.2; N := wrap64 (N l - under.1.1.1) |})).
    { rewrite Read_delegates by exact HB. cbv zeta. rewrite Hpass.
      destruct (Z.gtb_spec (len p) (N l)); [reflexivity | lia]. }
    split; [exact Hlen |].
    split; [rewrite Hread; reflexivity |].
    split; [rewrite Hread; reflexivity |].
    split; [| split].
    + intros log. rewrite spying_delegates by exact HB. rewrite Hpass. reflexivity.
    + intros Hn. rewrite Hread. cbn [fst snd]. lia.
    + intros Hn. rewrite Hread. cbn [fst snd N].
      rewrite wrap64_exact by (unfold is_int64; lia). lia.
  - intros Hwithin. split.
    + intros ctx p. destruct (Read_within Hwithin ctx p l HN) as [Hn Hleft].
      lia.
    + intros cs. destruct (ReadSeq_within Hwithin cs l HN) as [Htot Hleft].
      lia.
Qed.

Lemma MockReadCloser_counts_within_buffer : counts_within_buffer MockReadCloser.
Proof.
  intros ctx p [f x]. cbn. unfold MockReadCloser_Read, rand_Read. cbn [Fail rand_src].
  destruct f; [cbn [fst]; unfold len; lia |].
  destruct (rand_fill p x). cbn [fst]. unfold len. lia.
Qed.

Lemma C3_witness :
  let l := {| R := mockReadCloser; N := 25 |} in
  len (take 25 buf) = 25
  /\ (Read Background buf l).1.1 = (25, nil_error)
  /\ calls (R (Read Background buf (spying l [])).2)
     = [CallRead Background (take 25 buf)]
  /\ N (Read Background buf l).2 = 0
  /\ 0 <= N (ReadSeq [(Background, buf); (Background, buf)] l).2.
Proof.
  cbv zeta.
  assert (HN : 0 <= N {| R := mockReadCloser; N := 25 |} < 2 ^ 63) by (cbn; lia).
  destruct (C3_budget_is_never_overdrawn {| R := mockReadCloser; N := 25 |} HN)
    as [Hlong Hinv].
  destruct (Hlong Background buf) as (Hlen & Hres & _ & Hlog & _ & _);
    [cbn; lia | vm_compute; reflexivity |].
  destruct (Hinv MockReadCloser_counts_within_buffer) as [Hone Hseq].
  destruct (Hone Background buf) as (_ & Hleft & _).
  destruct (Hseq [(Background, buf); (Background, buf)]) as [_ Hpos].
  split; [exact Hlen |].
  split; [rewrite Hres; vm_compute; reflexivity |].
  split; [exact (Hlog []) |].
  split; [rewrite Hleft; vm_compute; reflexivity | exact Hpos].
Defined.

(** C3 without the amendment does not hold.  The count returned is the
    count the stream reports, whatever the length of the buffer it was
    given: with a budget of 25 and a buffer of 100 bytes, a stream that
    reports 200 makes [Read] return 200 and leaves a budget of -175.  And
    a count no larger than the buffer can be negative: a stream that
    always reports -1 takes a budget of [2^63 - 1] to [-2^63]. *)
Lemma C3_counterexample :
  let l := {| R := overReporting; N := 25 |} in
  let l' := {| R := backwards; N := 2 ^ 63 - 1 |} in
  (0 < N l /\ N l < len buf
   /\ (Read Background buf l).1.1 = (200, nil_error)
   /\ ~ (Read Background buf l).1.1.1 <= N l
   /\ N (Read Background buf l).2 = -175)
  /\ ((forall ctx p (s : Backwards), (Read ctx p s).1.1.1 <= len p)
      /\ 0 <= N l' < 2 ^ 63
      /\ N (Read Background buf l').2 = - 2 ^ 63
      /\ ~ 0 <= N (Read Background buf l').2).
Proof.
  cbv zeta. split.
  - split; [cbn; lia |]. split; [vm_compute; reflexivity |].
    split; [vm_compute; reflexivity |].
    split; [vm_compute; intros H; apply H; reflexivity | vm_compute; reflexivity].
  - split; [intros ctx p s; cbn; unfold len; lia |].
    split; [cbn; lia |].
    assert (Hleft : N (Read Background buf {| R := backwards; N := 2 ^ 63 - 1 |}).2
                    = - 2 ^ 63) by (vm_compute; reflexivity).
    split; [exact Hleft |]. rewrite Hleft. lia.
Qed.

(** ** The adapters *)

(** C7.  The adapter made by [ToIoReadCloser] returns from [Read(p)] and
    [Close()] what the stream it wraps returns from [Read] and [Close]
    called with the background context: the same count, error and buffer.
    It holds nothing but that stream, which a [Spy] shows to be called
    once, with [Background].  The same for [Write(p)] and [Close()] of the
    adapter made by [ToIoWriteCloser]. *)
Theorem C7_adapters_forward_with_background
    {S T : Type} `{!ReadCloser S} `{!WriteCloser T}
    (rc : S) (wc : T) (p : bytes) (log : list Call) :
  (io.Read p (ToIoReadCloser rc)
     = ((Read Background p rc).1, ToIoReadCloser (Read Background p rc).2)
   /\ io.Close (ToIoReadCloser rc)
      = ((Close Background rc).1, ToIoReadCloser (Close Background rc).2)
   /\ readCloser (ToIoReadCloser rc) = rc
   /\ calls (readCloser
        (io.Read p (ToIoReadCloser {| spied := rc; calls := log |})).2)
      = log ++ [CallRead Background p]
   /\ calls (readCloser
        (io.Close (ToIoReadCloser {| spied := rc; calls := log |})).2)
      = log ++ [CallClose Background])
  /\ (io.Write p (ToIoWriteCloser wc)
        = ((Write Background p wc).1, ToIoWriteCloser (Write Background p wc).2)
      /\ io.Close (ToIoWriteCloser wc)
         = ((Close Background wc).1, ToIoWriteCloser (Close Background wc).2)
      /\ writeCloser (ToIoWriteCloser wc) = wc).
Proof.
  split; [split; [| split; [| split; [| split]]] | split; [| split]].
  - cbn. unfold ioCompatReadCloser_Read, ToIoReadCloser. cbn [readCloser].
    destruct (Read Background p rc) as [[[n err] p1] r]. reflexivity.
  - cbn. unfold ioCompatReadCloser_Close, ToIoReadCloser. cbn [readCloser].
    destruct (Close Background rc) as [err r]. reflexivity.
  - reflexivity.
  - cbn. unfold ioCompatReadCloser_Read, ToIoReadCloser.
    cbn [readCloser Read Spy_ReadCloser]. unfold Spy_Read. cbn [spied calls].
    destruct (Read Background p rc) as [[[n err] p1] r]. reflexivity.
  - cbn. unfold ioCompatReadCloser_Close, ToIoReadCloser.
    cbn [readCloser Close ReadCloser_Closer Spy_ReadCloser Spy_Closer].
    unfold Spy_Close. cbn [spied calls].
    destruct (Close Background rc) as [err r]. reflexivity.
  - cbn. unfold ioCompatWriteCloser_Write, ToIoWriteCloser. cbn [writeCloser].
    destruct (Write Background p wc) as [[n err] w]. reflexivity.
  - cbn. unfold ioCompatWriteCloser_Close, ToIoWriteCloser. cbn [writeCloser].
    destruct (Close Background wc) as [err w]. reflexivity.
  - reflexivity.
Qed.

(** ** The registry *)

Section RegistryFacts.
Context {W RC WC : Type}.
Implicit Types (reg : gmap string (option (FileSystem.t W RC WC)))
  (fs : option (FileSystem.t W RC WC)) (u : URL) (s : string).

Lemma GetImplementation_lookup u reg :
  GetImplementation u reg = default None (reg !! Scheme u).
Proof.
  unfold GetImplementation, index, index2.
  destruct (reg !! Scheme u); reflexivity.
Qed.

Lemma HasImplementation_true s reg :
  HasImplementation s reg = true <-> is_Some (reg !! s).
Proof.
  unfold HasImplementation, index2.
  destruct (reg !! s) as [v|]; cbn; split; intros H;
    try reflexivity; try discriminate; eauto.
  destruct H as [v Hv]. discriminate.
Qed.

Lemma HasImplementation_false s reg :
  HasImplementation s reg = false <-> reg !! s = None.
Proof.
  unfold HasImplementation, index2.
  destruct (reg !! s) as [v|]; cbn; split; intros H;
    try reflexivity; discriminate.
Qed.

Lemma dispatch_resolved ctx u watcher reg (w : W) :
  dispatch ctx u watcher reg w =
    match GetImplementation u reg with
    | Some impl => forwarded impl ctx u watcher w
    | None => refused w
    end.
Proof.
  unfold dispatch, OpenReader, OpenWriter, OpenAppender, ListEntries,
    WatchFile, Remove.
  destruct (GetImplementation u reg); reflexivity.
Qed.

Lemma GetImplementation_Add u s fs reg :
  Scheme u = s -> GetImplementation u (AddImplementation s fs reg) = fs.
Proof.
  intros <-. rewrite GetImplementation_lookup. unfold AddImplementation.
  rewrite lookup_insert_eq. reflexivity.
Qed.

Lemma GetImplementation_Add_other u s fs reg :
  Scheme u <> s ->
  GetImplementation u (AddImplementation s fs reg) = GetImplementation u reg.
Proof.
  intros Hne. rewrite !GetImplementation_lookup. unfold AddImplementation.
  rewrite lookup_insert_ne by congruence. reflexivity.
Qed.

Lemma GetImplementation_later u later : forall reg,
  Forall (fun e => e.1 <> Scheme u) later ->
  GetImplementation u (AddImplementations later reg) = GetImplementation u reg.
Proof.
  induction later as [|[s' fs'] later IH]; intros reg Hall; [reflexivity |].
  inversion Hall as [|? ? Hhead Htail]; subst.
  unfold AddImplementations in *. cbn [foldl fst snd].
  rewrite IH by exact Htail.
  apply GetImplementation_Add_other. cbn in Hhead. congruence.
Qed.
End RegistryFacts.

(** C2.  For a URL whose scheme has no implementation registered,
    [GetImplementation] returns [nil] and each of [OpenReader],
    [OpenWriter], [OpenAppender], [ListEntries], [WatchFile] and [Remove]
    returns [ENOFS], with [nil] for every other result.  No implementation
    is called: whatever implementations are registered under other
    schemes, and whatever they would do to the world, the world is as it
    was. *)
Theorem C2_unregistered_scheme_is_ENOFS
    {W RC WC : Type} (reg : gmap string (option (FileSystem.t W RC WC)))
    (ctx : context) (u : URL) (watcher : FileSystem.FileWatchFunc W RC) (w : W) :
  HasImplementation (Scheme u) reg = false ->
  GetImplementation u reg = None
  /\ OpenReader ctx u reg w = (None, Some ENOFS, w)
  /\ OpenWriter ctx u reg w = (None, Some ENOFS, w)
  /\ OpenAppender ctx u reg w = (None, Some ENOFS, w)
  /\ ListEntries ctx u reg w = (None, Some ENOFS, w)
  /\ WatchFile ctx u watcher reg w = (None, None, Some ENOFS, w)
  /\ Remove ctx u reg w = (Some ENOFS, w).
Proof.
  intros Hhas. apply HasImplementation_false in Hhas.
  assert (Hget : GetImplementation u reg = None).
  { rewrite GetImplementation_lookup, Hhas. reflexivity. }
  pose proof (dispatch_resolved ctx u watcher reg w) as Hd.
  rewrite Hget in Hd. unfold dispatch, refused in Hd.
  injection Hd as H1 H2 H3 H4 H5 H6.
  repeat split; assumption.
Qed.

Lemma C2_witness :
  let reg := AddImplementation "file" (Some (Tagged "disk")) make_registeredFileSystems in
  let u := url_of "gs" "/bucket/object" in
  HasImplementation (Scheme u) reg = false
  /\ OpenReader Background u reg ["before"] = (None, Some ENOFS, ["before"])
  /\ Remove Background u reg ["before"] = (Some ENOFS, ["before"])
  /\ Remove Background (url_of "file" "/tmp/x") reg ["before"]
     = (Some EUNSUPP, ["before"; "disk.Remove"]).
Proof.
  cbv zeta.
  assert (Hhas : HasImplementation (Scheme (url_of "gs" "/bucket/object"))
            (AddImplementation "file" (Some (Tagged "disk"))
               (make_registeredFileSystems (W := list string) (RC := unit) (WC := unit)))
          = false) by (vm_compute; reflexivity).
  destruct (C2_unregistered_scheme_is_ENOFS _ Background _ ignore_changes
              ["before"] Hhas) as (_ & Hopen & _ & _ & _ & _ & Hremove).
  split; [exact Hhas |]. split; [exact Hopen |]. split; [exact Hremove |].
  vm_compute. reflexivity.
Defined.

(** C6.  After [AddImplementation(s, a)] and then [AddImplementation(s, b)]
    the registry is what [AddImplementation(s, b)] alone makes it:
    [GetImplementation] on a URL with scheme [s] returns [b], not [a], also
    after any registrations under other schemes, and the six dispatching
    functions give what [b] gives ([ENOFS] when [b] is [nil]). *)
Theorem C6_last_registration_wins
    {W RC WC : Type} (reg : gmap string (option (FileSystem.t W RC WC)))
    (s : string) (a b : option (FileSystem.t W RC WC)) (u : URL) :
  Scheme u = s ->
  let reg' := AddImplementation s b (AddImplementation s a reg) in
  GetImplementation u reg' = b
  /\ (a <> b -> GetImplementation u reg' <> a)
  /\ reg' = AddImplementation s b reg
  /\ HasImplementation s reg' = true
  /\ (forall later,
        Forall (fun e => e.1 <> s) later ->
        GetImplementation u (AddImplementations later reg') = b)
  /\ (forall ctx watcher w,
        dispatch ctx u watcher reg' w =
          match b with
          | Some impl => forwarded impl ctx u watcher w
          | None => refused w
          end).
Proof.
  intros Hs reg'.
  assert (Hget : GetImplementation u reg' = b)
    by (apply GetImplementation_Add, Hs).
  split; [exact Hget |].
  split; [intros Hab; rewrite Hget; congruence |].
  split; [apply insert_insert_eq |].
  split; [apply HasImplementation_true; unfold reg', AddImplementation;
          rewrite lookup_insert_eq; eauto |].
  split.
  - intros later Hlater. rewrite GetImplementation_later; [exact Hget |].
    rewrite Hs. exact Hlater.
  - intros ctx watcher w. rewrite dispatch_resolved, Hget. reflexivity.
Qed.

Lemma C6_witness :
  let reg := make_registeredFileSystems in
  let reg' := AddImplementation "file" (Some (Tagged "new"))
                (AddImplementation "file" (Some (Tagged "old")) reg) in
  let u := url_of "file" "/tmp/x" in
  Scheme u = "file"
  /\ GetImplementation u reg' = Some (Tagged "new")
  /\ OpenReader Background u reg' [] = (None, Some EUNSUPP, ["new.OpenReader"])
  /\ Remove Background u (AddImplementations [("gs", Some (Tagged "cloud"))] reg') []
     = (Some EUNSUPP, ["new.Remove"]).
Proof.
  cbv zeta.
  destruct (C6_last_registration_wins make_registeredFileSystems "file"
              (Some (Tagged "old")) (Some (Tagged "new"))
              (url_of "file" "/tmp/x") eq_refl)
    as (Hget & _ & _ & _ & _ & Hdispatch).
  split; [reflexivity |]. split; [exact Hget |].
  split; [| vm_compute; reflexivity].
  pose proof (Hdispatch Background ignore_changes []) as Hd.
  exact (f_equal (fun six => six.1.1.1.1.1) Hd).
Defined.

(** C10 (amended).  [GetImplementation(u)] returns what
    [registeredFileSystems[u.Scheme]] holds when [HasImplementation] is
    true of the scheme, and [nil] when it is false.  A scheme can be
    registered with [nil]: [GetImplementation] returns [nil] exactly when
    the scheme is not registered or is registered with [nil], so that
    [nil] stands for [HasImplementation] being false in every registry
    that holds no [nil]. *)
Theorem C10_lookup_agrees_with_has
    {W RC WC : Type} (reg : gmap string (option (FileSystem.t W RC WC)))
    (u : URL) :
  (HasImplementation (Scheme u) reg = false -> GetImplementation u reg = None)
  /\ (HasImplementation (Scheme u) reg = true ->
      reg !! Scheme u = Some (GetImplementation u reg))
  /\ (GetImplementation u reg = None <->
      HasImplementation (Scheme u) reg = false \/ reg !! Scheme u = Some None)
  /\ ((forall s, reg !! s <> Some None) ->
      (GetImplementation u reg = None <-> HasImplementation (Scheme u) reg = false)).
Proof.
  rewrite GetImplementation_lookup.
  unfold HasImplementation, index2.
  destruct (reg !! Scheme u) as [[impl|]|] eqn:Hlook; cbn;
    (split; [| split; [| split]]).
  - discriminate.
  - reflexivity.
  - split; [discriminate | intros [Hf|Hf]; discriminate].
  - intros _. split; discriminate.
  - discriminate.
  - reflexivity.
  - split; [intros _; right; reflexivity | reflexivity].
  - intros Hnonil. exfalso. exact (Hnonil (Scheme u) Hlook).
  - reflexivity.
  - discriminate.
  - split; [intros _; left; reflexivity | reflexivity].
  - intros _. split; reflexivity.
Qed.

(** C10 without the amendment does not hold: a scheme registered with
    [nil] has [HasImplementation] true and [GetImplementation] [nil], so
    that a [nil] result and a false [HasImplementation] are not
    equivalent in every registry. *)
Lemma C10_counterexample :
  let reg : gmap string (option (FileSystem.t unit unit unit)) :=
    AddImplementation "mem" None make_registeredFileSystems in
  let u := url_of "mem" "/x" in
  GetImplementation u reg = None
  /\ HasImplementation (Scheme u) reg = true
  /\ ~ (GetImplementation u reg = None <-> HasImplementation (Scheme u) reg = false).
Proof.
  cbv zeta.
  assert (Hget : GetImplementation (url_of "mem" "/x")
            (AddImplementation "mem" None
               (make_registeredFileSystems (W := unit) (RC := unit) (WC := unit)))
          = None) by (vm_compute; reflexivity).
  assert (Hhas : HasImplementation (Scheme (url_of "mem" "/x"))
            (AddImplementation "mem" None
               (make_registeredFileSystems (W := unit) (RC := unit) (WC := unit)))
          = true) by (vm_compute; reflexivity).
  split; [exact Hget |]. split; [exact Hhas |].
  intros [Hiff _]. specialize (Hiff Hget). rewrite Hhas in Hiff. discriminate.
Qed.

Lemma C10_witness :
  let reg := AddImplementation "file" (Some (Tagged "disk"))
               (AddImplementation "mem" None make_registeredFileSystems) in
  HasImplementation "file" reg = true
  /\ reg !! "file" = Some (GetImplementation (url_of "file" "/x") reg)
  /\ GetImplementation (url_of "gs" "/x") reg = None
  /\ GetImplementation (url_of "mem" "/x") reg = None.
Proof.
  cbv zeta.
  set (reg := AddImplementation "file" (Some (Tagged "disk"))
               (AddImplementation "mem" None make_registeredFileSystems)).
  destruct (C10_lookup_agrees_with_has reg (url_of "file" "/x"))
    as (_ & Hfile & _ & _).
  destruct (C10_lookup_agrees_with_has reg (url_of "gs" "/x"))
    as (Hgs & _ & _ & _).
  destruct (C10_lookup_agrees_with_has reg (url_of "mem" "/x"))
    as (_ & _ & Hmem & _).
  split; [vm_compute; reflexivity |].
  split; [apply Hfile; vm_compute; reflexivity |].
  split; [apply Hgs; vm_compute; reflexivity |].
  apply Hmem. right. vm_compute. reflexivity.
Defined.

(** * Further properties of the limiting reader *)

Lemma wrap64_sub_wrap64 (a b : Z) : wrap64 (wrap64 a - b) = wrap64 (a - b).
Proof.
  unfold wrap64. f_equal.
  replace ((a + 2 ^ 63) mod 2 ^ 64 - 2 ^ 63 - b + 2 ^ 63)
    with ((a + 2 ^ 63) mod 2 ^ 64 - b) by lia.
  rewrite Zminus_mod_idemp_l. f_equal. lia.
Qed.

Lemma ReadSeq_exhausted {S : Type} `{!ReadCloser S}
    (cs : list (context * bytes)) (l : LimitedReadCloser S) :
  N l <= 0 -> ReadSeq cs l = (map (fun _ => (0, Some EOF)) cs, l).
Proof.
  intros HN. induction cs as [|[ctx p] cs IH]; [reflexivity |].
  rewrite ReadSeq_cons, (Read_exhausted ctx p l HN). cbn [fst snd].
  rewrite IH. reflexivity.
Qed.

Lemma Read_budget {S : Type} `{!ReadCloser S} ctx p (l : LimitedReadCloser S) :
  is_int64 (N l) ->
  N (Read ctx p l).2 = wrap64 (N l - (Read ctx p l).1.1.1).
Proof.
  intros HN. destruct (Z.le_gt_cases (N l) 0) as [H0|H0].
  - rewrite Read_exhausted by exact H0. cbn [fst snd].
    rewrite Z.sub_0_r, wrap64_exact by exact HN. reflexivity.
  - rewrite Read_delegates by exact H0. reflexivity.
Qed.

(** The budget is kept by the book whatever the underlying stream does,
    errors and wrong counts included: after any sequence of [Read] calls
    it is the budget before less the sum of the counts returned, in the
    arithmetic of [int64]. *)
Theorem budget_is_conserved
    {S : Type} `{!ReadCloser S} (cs : list (context * bytes))
    (l : LimitedReadCloser S) :
  is_int64 (N l) ->
  N (ReadSeq cs l).2 = wrap64 (N l - total (ReadSeq cs l).1)
  /\ is_int64 (N (ReadSeq cs l).2).
Proof.
  revert l. induction cs as [|[ctx p] cs IH]; intros l HN.
  - cbn. rewrite Z.sub_0_r, wrap64_exact by exact HN. split; [reflexivity | exact HN].
  - rewrite ReadSeq_cons. cbn [fst snd]. rewrite total_cons.
    pose proof (Read_budget ctx p l HN) as Hstep.
    destruct (IH (Read ctx p l).2) as [Hleft Hint].
    { rewrite Hstep. apply wrap64_is_int64. }
    split; [| exact Hint].
    rewrite Hleft, Hstep, wrap64_sub_wrap64. cbn [fst]. f_equal. lia.
Qed.

Lemma budget_is_conserved_witness :
  let l := {| R := {| reads := [(3, Some ErrDisk); (200, nil_error)]; closes := [] |};
              N := 125 |} in
  let cs := [(Background, buf); (Background, buf); (Background, buf)] in
  (ReadSeq cs l).1 = [(3, Some ErrDisk); (200, nil_error); (0, Some EOF)]
  /\ N (ReadSeq cs l).2 = -78.
Proof.
  cbv zeta.
  assert (HN : is_int64 (N {| R := {| reads := [(3, Some ErrDisk); (200, nil_error)];
                                      closes := [] |}; N := 125 |}))
    by (unfold is_int64; cbn; lia).
  destruct (budget_is_conserved
              [(Background, buf); (Background, buf); (Background, buf)] _ HN)
    as [Hleft _].
  split; [vm_compute; reflexivity |].
  rewrite Hleft. vm_compute. reflexivity.
Defined.

(** A [Read] that reports as many bytes as the budget, or more, leaves no
    budget: from then on every [Read] returns [(0, EOF)], the reader stays
    as it is, and the underlying stream is not called again. *)
Theorem reporting_the_budget_exhausts
    {S : Type} `{!ReadCloser S} (ctx : context) (p : bytes)
    (l : LimitedReadCloser S) (cs : list (context * bytes)) (log : list Call) :
  0 < N l < 2 ^ 63 ->
  N l <= (Read ctx p l).1.1.1 < 2 ^ 63 ->
  let l1 := (Read ctx p l).2 in
  N l1 = N l - (Read ctx p l).1.1.1
  /\ N l1 <= 0
  /\ ReadSeq cs l1 = (map (fun _ => (0, Some EOF)) cs, l1)
  /\ calls (R (ReadSeq cs (spying l1 log)).2) = log.
Proof.
  intros HN Hn l1.
  assert (Hleft : N l1 = N l - (Read ctx p l).1.1.1).
  { unfold l1. rewrite Read_budget by (unfold is_int64; lia).
    apply wrap64_exact. unfold is_int64. lia. }
  assert (H0 : N l1 <= 0) by lia.
  split; [exact Hleft |]. split; [exact H0 |].
  split; [apply ReadSeq_exhausted, H0 |].
  rewrite ReadSeq_exhausted by exact H0. reflexivity.
Qed.

Lemma reporting_the_budget_exhausts_witness :
  let l := {| R := {| reads := [(200, nil_error); (7, nil_error)]; closes := [] |};
              N := 125 |} in
  (Read Background buf l).1.1 = (200, nil_error)
  /\ N (Read Background buf l).2 = -75
  /\ (ReadSeq [(Background, buf); (Background, buf)] (Read Background buf l).2).1
     = [(0, Some EOF); (0, Some EOF)].
Proof.
  cbv zeta.
  set (l := {| R := {| reads := [(200, nil_error); (7, nil_error)]; closes := [] |};
               N := 125 |}).
  assert (HN : 0 < N l < 2 ^ 63) by (cbn; lia).
  assert (Hn : N l <= (Read Background buf l).1.1.1 < 2 ^ 63)
    by (vm_compute; split; [discriminate | reflexivity]).
  destruct (reporting_the_budget_exhausts Background buf l
              [(Background, buf); (Background, buf)] [] HN Hn)
    as (Hleft & _ & Hseq & _).
  split; [vm_compute; reflexivity |].
  split; [rewrite Hleft; vm_compute; reflexivity |].
  rewrite Hseq. reflexivity.
Defined.

(** ** A limiting reader over a limiting reader *)

Section Nested.
Context {S : Type} `{!ReadCloser S}.
Variable avail : S -> Z.
Hypothesis Havail : has_available avail.
Implicit Types (ll : LimitedReadCloser (LimitedReadCloser S)) (p : bytes)
  (ctx : context).

Lemma Read_nested ctx p ll :
  0 <= N ll < 2 ^ 63 ->
  0 <= N (R ll) < 2 ^ 63 ->
  N (R ll) <= avail (R (R ll)) ->
  (Read ctx p ll).1.1 =
    (Z.min (len p) (Z.min (N ll) (N (R ll))),
     if Z.min (N ll) (N (R ll)) =? 0 then Some EOF else nil_error)
  /\ N (Read ctx p ll).2 = N ll - Z.min (len p) (Z.min (N ll) (N (R ll)))
  /\ N (R (Read ctx p ll).2) = N (R ll) - Z.min (len p) (Z.min (N ll) (N (R ll)))
  /\ N (R (Read ctx p ll).2) <= avail (R (R (Read ctx p ll).2)).
Proof using Havail.
  intros H1 H2 Hav. assert (Hlen : 0 <= len p) by (unfold len; lia).
  destruct (Z.eqb_spec (N ll) 0) as [H0|H0].
  - rewrite Read_exhausted by lia. cbn [fst snd].
    replace (Z.min (N ll) (N (R ll))) with 0 by lia.
    replace (Z.min (len p) 0) with 0 by lia. cbn.
    repeat split; lia.
  - rewrite Read_delegates by lia. cbn [fst snd N R].
    pose proof (len_passed_on p ll ltac:(lia)) as Hpass.
    destruct (Read_filling avail Havail ctx (passed_on p ll) (R ll) H2 Hav)
      as (Hres & Hleft & Hav').
    rewrite Hres, Hleft. cbn [fst snd]. rewrite Hpass.
    replace (Z.min (Z.min (len p) (N ll)) (N (R ll)))
      with (Z.min (len p) (Z.min (N ll) (N (R ll)))) by lia.
    split.
    + f_equal. destruct (Z.eqb_spec (N (R ll)) 0);
        destruct (Z.eqb_spec (Z.min (N ll) (N (R ll))) 0); try reflexivity; lia.
    + split; [apply wrap64_exact; unfold is_int64; lia |].
      split; [reflexivity |].
      rewrite Hleft, Hpass in Hav'.
      replace (Z.min (Z.min (len p) (N ll)) (N (R ll)))
        with (Z.min (len p) (Z.min (N ll) (N (R ll)))) in Hav' by lia.
      exact Hav'.
Qed.

Lemma ReadSeq_nested cs : forall ll,
  0 <= N ll < 2 ^ 63 ->
  0 <= N (R ll) < 2 ^ 63 ->
  N (R ll) <= avail (R (R ll)) ->
  total (ReadSeq cs ll).1 = Z.min (requested cs) (Z.min (N ll) (N (R ll)))
  /\ N (ReadSeq cs ll).2 = N ll - total (ReadSeq cs ll).1
  /\ N (R (ReadSeq cs ll).2) = N (R ll) - total (ReadSeq cs ll).1
  /\ N (R (ReadSeq cs ll).2) <= avail (R (R (ReadSeq cs ll).2)).
Proof using Havail.
  induction cs as [|[ctx p] cs IH]; intros ll H1 H2 Hav.
  - cbn. repeat split; lia.
  - rewrite ReadSeq_cons. cbn [fst snd].
    destruct (Read_nested ctx p ll H1 H2 Hav) as (Hres & Ho & Hi & Hav').
    assert (Hlen : 0 <= len p) by (unfold len; lia).
    destruct (IH (Read ctx p ll).2) as (Htot & Ho' & Hi' & Hav'');
      [lia | lia | exact Hav' |].
    rewrite total_cons, requested_cons, Htot, Hres. cbn [fst snd].
    pose proof (requested_nonneg cs).
    repeat split; [lia | lia | lia | exact Hav''].
Qed.
End Nested.

(** Two limiting readers, one around the other, over a stream that has
    the inner budget available: any sequence of [Read] calls delivers the
    smaller of what the buffers ask for and of the two budgets, both
    budgets go down by what was delivered, and once the smaller budget is
    delivered the next [Read] returns [(0, EOF)]. *)
Theorem stacked_limits_take_the_smaller
    {S : Type} `{!ReadCloser S} (avail : S -> Z)
    (ll : LimitedReadCloser (LimitedReadCloser S))
    (cs : list (context * bytes)) :
  has_available avail ->
  0 <= N ll < 2 ^ 63 ->
  0 <= N (R ll) < 2 ^ 63 ->
  N (R ll) <= avail (R (R ll)) ->
  let rs := (ReadSeq cs ll).1 in
  let ll' := (ReadSeq cs ll).2 in
  total rs = Z.min (requested cs) (Z.min (N ll) (N (R ll)))
  /\ N ll' = N ll - total rs
  /\ N (R ll') = N (R ll) - total rs
  /\ (forall ctx p,
        total rs = Z.min (N ll) (N (R ll)) ->
        (Read ctx p ll').1.1 = (0, Some EOF)).
Proof.
  intros Havail H1 H2 Hav rs ll'. subst rs ll'.
  destruct (ReadSeq_nested avail Havail cs ll H1 H2 Hav)
    as (Htot & Ho & Hi & Hav').
  pose proof (requested_nonneg cs) as Hreq.
  split; [exact Htot |]. split; [exact Ho |]. split; [exact Hi |].
  intros ctx p Hall.
  destruct (Read_nested avail Havail ctx p (ReadSeq cs ll).2) as (Hres & _);
    [lia | lia | exact Hav' |].
  rewrite Hres. assert (Hlen : 0 <= len p) by (unfold len; lia).
  replace (Z.min (N (ReadSeq cs ll).2) (N (R (ReadSeq cs ll).2))) with 0 by lia.
  replace (Z.min (len p) 0) with 0 by lia. reflexivity.
Qed.

Lemma stacked_limits_take_the_smaller_witness :
  let ll := {| R := {| R := mockReadCloser; N := 60 |}; N := 125 |} in
  let cs := [(Background, buf); (Background, buf)] in
  (ReadSeq cs ll).1 = [(60, nil_error); (0, Some EOF)]
  /\ N (ReadSeq cs ll).2 = 65
  /\ N (R (ReadSeq cs ll).2) = 0.
Proof.
  cbv zeta.
  set (ll := {| R := {| R := mockReadCloser; N := 60 |}; N := 125 |}).
  set (cs := [(Background, buf); (Background, buf)]).
  assert (H1 : 0 <= N ll < 2 ^ 63) by (cbn; lia).
  assert (H2 : 0 <= N (R ll) < 2 ^ 63) by (cbn; lia).
  assert (Hav : N (R ll) <= MockReadCloser_avail (R (R ll)))
    by (vm_compute; discriminate).
  pose proof (stacked_limits_take_the_smaller MockReadCloser_avail ll cs
                MockReadCloser_has_available H1 H2 Hav) as H.
  cbv zeta in H. destruct H as (Htot & Ho & Hi & _).
  split; [vm_compute; reflexivity |].
  split; [rewrite Ho, Htot | rewrite Hi, Htot]; vm_compute; reflexivity.
Defined.

(** * Further properties of the adapters *)

Section Adapters.
Context {S T : Type} `{!ReadCloser S} `{!WriteCloser T}.

Lemma ioCompat_Read p (rc : S) :
  io.Read p (ToIoReadCloser rc)
  = ((Read Background p rc).1, ToIoReadCloser (Read Background p rc).2).
Proof.
  cbn. unfold ioCompatReadCloser_Read, ToIoReadCloser. cbn [readCloser].
  destruct (Read Background p rc) as [[[n err] p1] r]. reflexivity.
Qed.

Lemma ioCompat_Write p (wc : T) :
  io.Write p (ToIoWriteCloser wc)
  = ((Write Background p wc).1, ToIoWriteCloser (Write Background p wc).2).
Proof.
  cbn. unfold ioCompatWriteCloser_Write, ToIoWriteCloser. cbn [writeCloser].
  destruct (Write Background p wc) as [[n err] w]. reflexivity.
Qed.

Lemma io_ReadSeq_adapter ps : forall rc : S,
  io_ReadSeq ps (ToIoReadCloser rc)
  = ((ReadSeq (in_background ps) rc).1,
     ToIoReadCloser (ReadSeq (in_background ps) rc).2).
Proof.
  induction ps as [|p ps IH]; intros rc; [reflexivity |].
  cbn [io_ReadSeq in_background map]. fold (in_background ps).
  rewrite ReadSeq_cons, ioCompat_Read.
  destruct (Read Background p rc) as [[[n err] p1] r]. cbn [fst snd].
  rewrite IH. reflexivity.
Qed.

Lemma io_WriteSeq_adapter ps : forall wc : T,
  io_WriteSeq ps (ToIoWriteCloser wc)
  = ((WriteSeq (in_background ps) wc).1,
     ToIoWriteCloser (WriteSeq (in_background ps) wc).2).
Proof.
  induction ps as [|p ps IH]; intros wc; [reflexivity |].
  cbn [io_WriteSeq in_background map WriteSeq]. fold (in_background ps).
  rewrite ioCompat_Write.
  destruct (Write Background p wc) as [[n err] w]. cbn [fst snd].
  rewrite IH.
  destruct (WriteSeq (in_background ps) w) as [rs w2]. reflexivity.
Qed.
End Adapters.

(** Any sequence of calls through an adapter is the same sequence made on
    the wrapped stream with the background context: the same counts and
    errors call by call, and the wrapped stream in the same state at the
    end.  The adapters carry nothing from one call to the next. *)
Theorem adapters_follow_the_wrapped_stream
    {S T : Type} `{!ReadCloser S} `{!WriteCloser T}
    (ps : list bytes) (rc : S) (wc : T) :
  io_ReadSeq ps (ToIoReadCloser rc)
  = ((ReadSeq (in_background ps) rc).1,
     ToIoReadCloser (ReadSeq (in_background ps) rc).2)
  /\ io_WriteSeq ps (ToIoWriteCloser wc)
     = ((WriteSeq (in_background ps) wc).1,
        ToIoWriteCloser (WriteSeq (in_background ps) wc).2).
Proof.
  split; [apply io_ReadSeq_adapter | apply io_WriteSeq_adapter].
Qed.

(** A limiting reader keeps its limit behind the adapter to [io]: over a
    stream that has the budget available, the reads of a context-free
    caller deliver the smaller of the budget and of what the buffers ask
    for, and the budget left is the budget less that. *)
Theorem limit_holds_behind_the_adapter
    {S : Type} `{!ReadCloser S} (avail : S -> Z) (l : LimitedReadCloser S)
    (ps : list bytes) :
  has_available avail ->
  0 <= N l < 2 ^ 63 ->
  N l <= avail (R l) ->
  let rs := (io_ReadSeq ps (ToIoReadCloser l)).1 in
  let l' := readCloser (io_ReadSeq ps (ToIoReadCloser l)).2 in
  total rs = Z.min (requested (in_background ps)) (N l)
  /\ N l' = N l - total rs
  /\ Forall (fun r => r.2 = nil_error \/ r = (0, Some EOF)) rs.
Proof.
  intros Havail HN Hav rs l'. subst rs l'.
  rewrite io_ReadSeq_adapter. cbn [fst snd ToIoReadCloser readCloser].
  destruct (ReadSeq_filling avail Havail (in_background ps) l HN Hav)
    as (Htot & Hleft & _ & Hall).
  split; [exact Htot |]. split; [exact Hleft | exact Hall].
Qed.

Lemma limit_holds_behind_the_adapter_witness :
  let l := {| R := mockReadCloser; N := 125 |} in
  (io_ReadSeq [buf; buf; buf] (ToIoReadCloser l)).1
    = [(100, nil_error); (25, nil_error); (0, Some EOF)]
  /\ N (readCloser (io_ReadSeq [buf; buf; buf] (ToIoReadCloser l)).2) = 0.
Proof.
  cbv zeta.
  set (l := {| R := mockReadCloser; N := 125 |}).
  assert (HN : 0 <= N l < 2 ^ 63) by (cbn; lia).
  assert (Hav : N l <= MockReadCloser_avail (R l)) by (vm_compute; discriminate).
  pose proof (limit_holds_behind_the_adapter MockReadCloser_avail l [buf; buf; buf]
                MockReadCloser_has_available HN Hav) as H.
  cbv zeta in H. destruct H as (Htot & Hleft & _).
  split; [vm_compute; reflexivity |].
  rewrite Hleft, Htot. vm_compute. reflexivity.
Defined.

(** * Further properties of the registry *)

Section Histories.
Context {W RC WC : Type}.
Implicit Types (reg : gmap string (option (FileSystem.t W RC WC)))
  (history : list (string * option (FileSystem.t W RC WC)))
  (fs : option (FileSystem.t W RC WC)) (u : URL) (s : string).

Lemma AddImplementations_cons s fs history reg :
  AddImplementations ((s, fs) :: history) reg
  = AddImplementations history (AddImplementation s fs reg).
Proof. reflexivity. Qed.

Lemma lookup_AddImplementations history : forall reg s,
  AddImplementations history reg !! s
  = match last_registered s history with
    | Some found => Some found
    | None => reg !! s
    end.
Proof.
  induction history as [|[s' fs'] history IH]; intros reg s; [reflexivity |].
  rewrite AddImplementations_cons, IH. cbn [last_registered].
  destruct (last_registered s history); [reflexivity |].
  unfold AddImplementation. rewrite lookup_insert.
  destruct (decide (s' = s)); reflexivity.
Qed.

Lemma last_registered_is_Some s history :
  is_Some (last_registered s history) <-> s ∈ fst <$> history.
Proof.
  induction history as [|[s' fs'] history IH]; cbn [last_registered].
  - split; [intros [x Hx]; discriminate | intros H; inversion H].
  - rewrite fmap_cons, elem_of_cons. cbn [fst].
    destruct (last_registered s history) as [found|].
    + split; [intros _; right; apply IH; eauto | eauto].
    + destruct (decide (s' = s)) as [->|Hne].
      * split; [intros _; left; reflexivity | eauto].
      * split; [intros [x Hx]; discriminate |].
        intros [Heq|Hin]; [congruence |].
        apply IH in Hin. destruct Hin as [x Hx]. discriminate.
Qed.

Lemma HasImplementation_Add s s' fs reg :
  HasImplementation s reg = true ->
  HasImplementation s (AddImplementation s' fs reg) = true.
Proof.
  rewrite !HasImplementation_true. unfold AddImplementation.
  rewrite lookup_insert. destruct (decide (s' = s)); eauto.
Qed.

Lemma AddImplementations_Permutation history history' :
  history ≡ₚ history' ->
  NoDup (fst <$> history) ->
  forall reg, AddImplementations history reg = AddImplementations history' reg.
Proof.
  induction 1 as [|[s fs] h h' Hp IH|[s1 fs1] [s2 fs2] h|h h' h'' Hp1 IH1 Hp2 IH2];
    intros Hnd reg.
  - reflexivity.
  - rewrite !AddImplementations_cons. apply IH.
    rewrite fmap_cons in Hnd. apply NoDup_cons in Hnd. apply Hnd.
  - rewrite !AddImplementations_cons. f_equal.
    rewrite !fmap_cons in Hnd. cbn [fst] in Hnd.
    apply NoDup_cons in Hnd. destruct Hnd as [Hnotin _].
    rewrite elem_of_cons in Hnotin.
    unfold AddImplementation. apply insert_insert_ne. intros ->. tauto.
  - rewrite IH1 by exact Hnd. apply IH2. rewrite <- Hp1. exact Hnd.
Qed.
End Histories.

(** From the empty registry of a starting process, after any history of
    registrations: [GetImplementation] returns the value of the last
    registration under the scheme of the URL, and [nil] when there is
    none; [HasImplementation] is true exactly of the schemes that were
    registered, whatever they were registered with. *)
Theorem registry_holds_the_last_registrations
    {W RC WC : Type} (history : list (string * option (FileSystem.t W RC WC)))
    (u : URL) (s : string) :
  let reg := AddImplementations history make_registeredFileSystems in
  GetImplementation u reg = default None (last_registered (Scheme u) history)
  /\ HasImplementation s reg = bool_decide (s ∈ fst <$> history).
Proof.
  intros reg. subst reg. split.
  - rewrite GetImplementation_lookup, lookup_AddImplementations.
    destruct (last_registered (Scheme u) history); [reflexivity |].
    unfold make_registeredFileSystems. rewrite lookup_empty. reflexivity.
  - destruct (bool_decide_reflect (s ∈ fst <$> history)) as [Hin|Hnotin].
    + apply HasImplementation_true. rewrite lookup_AddImplementations.
      apply last_registered_is_Some in Hin. destruct Hin as [found ->]. eauto.
    + apply HasImplementation_false. rewrite lookup_AddImplementations.
      destruct (last_registered s history) as [found|] eqn:Hlast.
      * exfalso. apply Hnotin, last_registered_is_Some. rewrite Hlast. eauto.
      * apply lookup_empty.
Qed.

(** After any history of registrations from the empty registry, each of
    the six dispatching functions gives what the implementation last
    registered under the scheme of the URL gives, result and world, and
    [ENOFS] with the world untouched when the scheme was never registered
    or was last registered with [nil]. *)
Theorem dispatch_goes_to_the_last_registration
    {W RC WC : Type} (history : list (string * option (FileSystem.t W RC WC)))
    (ctx : context) (u : URL) (watcher : FileSystem.FileWatchFunc W RC) (w : W) :
  dispatch ctx u watcher (AddImplementations history make_registeredFileSystems) w
  = match last_registered (Scheme u) history with
    | Some (Some impl) => forwarded impl ctx u watcher w
    | _ => refused w
    end.
Proof.
  rewrite dispatch_resolved, GetImplementation_lookup, lookup_AddImplementations.
  destruct (last_registered (Scheme u) history) as [[impl|]|]; reflexivity.
Qed.

(** A registration under one scheme changes nothing for the URLs of
    another: [GetImplementation], [HasImplementation] and the six
    dispatching functions give what they gave before. *)
Theorem other_schemes_are_not_affected
    {W RC WC : Type} (reg : gmap string (option (FileSystem.t W RC WC)))
    (s : string) (fs : option (FileSystem.t W RC WC))
    (ctx : context) (u : URL) (watcher : FileSystem.FileWatchFunc W RC) (w : W) :
  s <> Scheme u ->
  GetImplementation u (AddImplementation s fs reg) = GetImplementation u reg
  /\ HasImplementation (Scheme u) (AddImplementation s fs reg)
     = HasImplementation (Scheme u) reg
  /\ dispatch ctx u watcher (AddImplementation s fs reg) w
     = dispatch ctx u watcher reg w.
Proof.
  intros Hne.
  assert (Hget : GetImplementation u (AddImplementation s fs reg)
                 = GetImplementation u reg)
    by (apply GetImplementation_Add_other; congruence).
  split; [exact Hget |]. split.
  - unfold HasImplementation, index2, AddImplementation.
    rewrite lookup_insert_ne by exact Hne. reflexivity.
  - rewrite !dispatch_resolved, Hget. reflexivity.
Qed.

Lemma other_schemes_are_not_affected_witness :
  let reg := AddImplementation "file" (Some (Tagged "disk")) make_registeredFileSystems in
  let reg' := AddImplementation "gs" (Some (Tagged "cloud")) reg in
  let u := url_of "file" "/tmp/x" in
  Remove Background u reg' [] = (Some EUNSUPP, ["disk.Remove"])
  /\ GetImplementation u reg' = Some (Tagged "disk").
Proof.
  cbv zeta.
  set (reg := AddImplementation "file" (Some (Tagged "disk")) make_registeredFileSystems).
  set (u := url_of "file" "/tmp/x").
  assert (Hne : "gs" <> Scheme u) by discriminate.
  destruct (other_schemes_are_not_affected reg "gs" (Some (Tagged "cloud"))
              Background u ignore_changes [] Hne) as (Hget & _ & Hd).
  split; [| rewrite Hget; vm_compute; reflexivity].
  exact (f_equal (fun six => six.2) Hd).
Defined.

(** Nothing takes a scheme out of the registry: a scheme that
    [HasImplementation] is true of stays so through any later
    registrations, a registration of [nil] under it included. *)
Theorem registered_schemes_stay_registered
    {W RC WC : Type} (reg : gmap string (option (FileSystem.t W RC WC)))
    (s : string) (later : list (string * option (FileSystem.t W RC WC))) :
  HasImplementation s reg = true ->
  HasImplementation s (AddImplementations later reg) = true.
Proof.
  revert reg. induction later as [|[s' fs'] later IH]; intros reg Hhas.
  - exact Hhas.
  - rewrite AddImplementations_cons. apply IH, HasImplementation_Add, Hhas.
Qed.

Lemma registered_schemes_stay_registered_witness :
  let reg := AddImplementation "file" (Some (Tagged "disk")) make_registeredFileSystems in
  HasImplementation "file" reg = true
  /\ HasImplementation "file"
       (AddImplementations [("gs", Some (Tagged "cloud")); ("file", None)] reg) = true.
Proof.
  cbv zeta.
  assert (Hhas : HasImplementation "file"
            (AddImplementation "file" (Some (Tagged "disk")) make_registeredFileSystems)
          = true) by (vm_compute; reflexivity).
  split; [exact Hhas |].
  exact (registered_schemes_stay_registered _ "file"
           [("gs", Some (Tagged "cloud")); ("file", None)] Hhas).
Defined.

(** Registrations under different schemes can be made in any order: two
    histories with the same registrations, no scheme twice, leave the same
    registry. *)
Theorem registration_order_does_not_matter
    {W RC WC : Type} (reg : gmap string (option (FileSystem.t W RC WC)))
    (history history' : list (string * option (FileSystem.t W RC WC))) :
  NoDup (fst <$> history) ->
  history ≡ₚ history' ->
  AddImplementations history reg = AddImplementations history' reg.
Proof.
  intros Hnd Hp. apply AddImplementations_Permutation; assumption.
Qed.

Lemma registration_order_does_not_matter_witness :
  AddImplementations
    [("file", Some (Tagged "disk")); ("gs", Some (Tagged "cloud")); ("mem", None)]
    make_registeredFileSystems
  = AddImplementations
      [("gs", Some (Tagged "cloud")); ("mem", None); ("file", Some (Tagged "disk"))]
      make_registeredFileSystems.
Proof.
  apply registration_order_does_not_matter.
  - apply (bool_decide_unpack _). vm_compute. exact I.
  - change [("gs", Some (Tagged "cloud")); ("mem", None); ("file", Some (Tagged "disk"))]
      with ([("gs", Some (Tagged "cloud")); ("mem", None)] ++ [("file", Some (Tagged "disk"))]).
    apply Permutation_cons_append.
Defined.

(** * Reads into empty buffers *)

Section EmptyBuffers.
Context {S : Type} `{!ReadCloser S}.
Hypothesis Hwithin : counts_within_buffer S.
Implicit Types (l : LimitedReadCloser S) (ctx : context).

Lemma Read_spying ctx p l log :
  0 < N l ->
  (Read ctx p (spying l log)).2
  = spying (Read ctx p l).2 (log ++ [CallRead ctx (passed_on p l)]).
Proof.
  intros HN. rewrite (Read_delegates ctx p l HN).
  rewrite (Read_delegates ctx p (spying l log) HN).
  change (passed_on p (spying l log)) with (passed_on p l).
  cbn [fst snd R N spying]. cbn [Read Spy_ReadCloser]. unfold Spy_Read.
  cbn [spied calls].
  destruct (Read ctx (passed_on p l) (R l)) as [[[n err] p1] r]. reflexivity.
Qed.

Lemma Read_empty ctx l :
  0 < N l < 2 ^ 63 ->
  (Read ctx [] l).1.1.1 = 0 /\ N (Read ctx [] l).2 = N l.
Proof using Hwithin.
  intros HN.
  destruct (Read_within Hwithin ctx [] l) as [Hn Hleft]; [lia |].
  change (len (@nil Byte.byte)) with 0 in Hn. lia.
Qed.

Lemma ReadSeq_empty cs : forall l log,
  0 < N l < 2 ^ 63 ->
  Forall (fun c => c.2 = []) cs ->
  total (ReadSeq cs l).1 = 0
  /\ N (ReadSeq cs l).2 = N l
  /\ calls (R (ReadSeq cs (spying l log)).2)
     = log ++ map (fun c => CallRead c.1 []) cs.
Proof using Hwithin.
  induction cs as [|[ctx p] cs IH]; intros l log HN Hall.
  - cbn. rewrite app_nil_r. repeat split.
  - inversion Hall as [|? ? Hp Hrest]; subst. cbn [snd] in Hp. subst p.
    rewrite !ReadSeq_cons. cbn [fst snd]. rewrite total_cons. cbn [fst].
    destruct (Read_empty ctx l HN) as [Hn Hleft].
    rewrite Read_spying by lia.
    destruct (IH (Read ctx [] l).2
                (log ++ [CallRead ctx (passed_on [] l)])) as (Htot & HN' & Hlog);
      [lia | exact Hrest |].
    split; [lia |]. split; [lia |].
    rewrite Hlog. cbn [map fst]. rewrite <- app_assoc.
    unfold passed_on, len. cbn [length].
    destruct (Z.gtb_spec (Z.of_nat 0) (N l)); [lia | reflexivity].
Qed.
End EmptyBuffers.

(** A [Read] into an empty buffer is not answered by the limiting reader
    itself while budget is left: it goes to the underlying stream, with the
    empty buffer, and costs nothing.  Over a stream that reports counts
    within the buffer, any sequence of such calls delivers 0 bytes and
    leaves the budget as it was, each call reaching the underlying
    stream. *)
Theorem empty_reads_are_forwarded_and_free
    {S : Type} `{!ReadCloser S} (l : LimitedReadCloser S)
    (cs : list (context * bytes)) (log : list Call) :
  counts_within_buffer S ->
  0 < N l < 2 ^ 63 ->
  Forall (fun c => c.2 = []) cs ->
  total (ReadSeq cs l).1 = 0
  /\ N (ReadSeq cs l).2 = N l
  /\ calls (R (ReadSeq cs (spying l log)).2)
     = log ++ map (fun c => CallRead c.1 []) cs.
Proof.
  intros Hwithin HN Hall. apply ReadSeq_empty; assumption.
Qed.

Lemma empty_reads_are_forwarded_and_free_witness :
  let l := {| R := mockReadCloser; N := 25 |} in
  let cs := [(Background, []); (WithCancel Background false, [])] in
  N (ReadSeq cs l).2 = 25
  /\ calls (R (ReadSeq cs (spying l [])).2)
     = [CallRead Background []; CallRead (WithCancel Background false) []].
Proof.
  cbv zeta.
  set (l := {| R := mockReadCloser; N := 25 |}).
  set (cs := [(Background, []); (WithCancel Background false, [])]).
  assert (HN : 0 < N l < 2 ^ 63) by (cbn; lia).
  assert (Hall : Forall (fun c : context * bytes => c.2 = []) cs)
    by (repeat constructor).
  destruct (empty_reads_are_forwarded_and_free l cs []
              MockReadCloser_counts_within_buffer HN Hall) as (_ & Hleft & Hlog).
  split; [exact Hleft | exact Hlog].
Defined.
